(** * JSON path extraction of the Doris backend (be/src/exprs/json_functions.h)

    Shallow embedding of [JsonPath] (with its [debug_string]), of the
    path parser, of the navigation of a parsed JSON document and of the
    three scalar entry points [get_json_int], [get_json_double] and
    [get_json_string] together with the prepare/close path cache. *)

From Stdlib Require Import ZArith QArith List Bool Lia.
From Stdlib Require Import Strings.String Strings.Ascii Numbers.DecimalString Numbers.DecimalZ.
Import ListNotations.

Open Scope string_scope.
Open Scope Z_scope.

(* ------------------------------------------------------------------ *)
(** ** Enumerations of the header *)

(** [enum JsonFunctionType { JSON_FUN_INT = 0, JSON_FUN_DOUBLE, JSON_FUN_STRING }] *)
Inductive JsonFunctionType := JSON_FUN_INT | JSON_FUN_DOUBLE | JSON_FUN_STRING.

(** [doris_udf::FunctionContext::FunctionStateScope] *)
Inductive FunctionStateScope := FRAGMENT_LOCAL | THREAD_LOCAL.

(* ------------------------------------------------------------------ *)
(** ** [struct JsonPath] *)

(** [int] of the C++ compiler: 32 bits. *)
Definition INT_MAX : Z := 2147483647.
Definition INT_MIN : Z := -2147483648.

Record JsonPath := mkJsonPath {
  key : string;      (* key of a json object *)
  idx : Z;           (* array index of a json array, -1 means not set *)
  is_valid : bool    (* true if the path is successfully parsed *)
}.

(** A [std::stringstream] with default formatting flags, as the
    characters written to it so far. *)
Record stringstream := mkStringstream { ss_buf : string }.

Definition ss_empty : stringstream := mkStringstream "".

(** [ss << const std::string&] *)
Definition ss_put_string (ss : stringstream) (s : string) : stringstream :=
  mkStringstream (ss_buf ss ++ s).

(** [ss << int]: decimal digits, with a leading [-] when negative. *)
Definition int_decimal (z : Z) : string := NilEmpty.string_of_int (Z.to_int z).

Definition ss_put_int (ss : stringstream) (z : Z) : stringstream :=
  ss_put_string ss (int_decimal z).

(** [ss << bool] without [std::boolalpha]: [1] or [0]. *)
Definition ss_put_bool (ss : stringstream) (b : bool) : stringstream :=
  ss_put_string ss (if b then "1" else "0").

(** [ss.str()] *)
Definition ss_str (ss : stringstream) : string := ss_buf ss.

(** [std::string JsonPath::debug_string()]: a (non-const) member function,
    so it receives [this] and returns it next to its result. *)
Definition debug_string (this : JsonPath) : string * JsonPath :=
  let ss := ss_empty in
  let ss := ss_put_string ss "key: " in
  let ss := ss_put_string ss (key this) in
  let ss := ss_put_string ss ", idx: " in
  let ss := ss_put_int ss (idx this) in
  let ss := ss_put_string ss ", valid: " in
  let ss := ss_put_bool ss (is_valid this) in
  (ss_str ss, this).


(* ------------------------------------------------------------------ *)
(** ** Characters *)

Definition is_digit (c : ascii) : bool :=
  (48 <=? nat_of_ascii c)%nat && (nat_of_ascii c <=? 57)%nat.

Definition digit_val (c : ascii) : Z := Z.of_nat (nat_of_ascii c) - 48.

Definition is_ws (c : ascii) : bool :=
  (c =? " ")%char || (c =? "009")%char || (c =? "010")%char || (c =? "013")%char.

(* ------------------------------------------------------------------ *)
(** ** JSON documents (the [rapidjson::Document] the code walks) *)

(** The value nodes of a parsed document; numbers are kept exactly, as
    rationals; an object keeps its members in text order. *)
#[local] Set Warnings "-register-all".
Inductive json :=
| JNull
| JBool (b : bool)
| JNum (q : Q)
| JStr (s : string)
| JArr (elems : list json)
| JObj (members : list (string * json)).

(** Modelled from the spec: the JSON text parser (rapidjson, an external
    collaborator; "a capability that parses bytes into a tree of typed nodes
    and reports malformed input").  The model accepts ASCII JSON texts:
    literals, numbers with fraction and exponent, strings with the escapes
    other than [\u], arrays and objects, surrounded by white space. *)
Fixpoint skip_ws (s : string) : string :=
  match s with
  | String c r => if is_ws c then skip_ws r else s
  | EmptyString => s
  end.

(** [prefix] of the standard library: [true] when the first string starts
    the second; [drop_prefix] removes it. *)
Definition drop_prefix (lit s : string) : option string :=
  if prefix lit s then Some (substring (length lit) (length s - length lit) s)
  else None.

Fixpoint lex_digits (s : string) (acc : Z) (n : nat) : Z * nat * string :=
  match s with
  | String c r => if is_digit c then lex_digits r (acc * 10 + digit_val c) (S n)
                  else (acc, n, s)
  | EmptyString => (acc, n, s)
  end.

(** number := ['-'] digits ['.' digits] [('e'|'E') ['+'|'-'] digits] *)
Definition lex_number (s : string) : option (Q * string) :=
  let '(neg, s) := match s with
                   | String "-" r => (true, r)
                   | _ => (false, s)
                   end in
  let '(m, n, s) := lex_digits s 0 0 in
  if (n =? 0)%nat then None else
  let frac := match s with
              | String "." r =>
                  let '(f, k, r') := lex_digits r 0 0 in
                  if (k =? 0)%nat then None else Some (m * 10 ^ Z.of_nat k + f, Z.of_nat k, r')
              | _ => Some (m, 0, s)
              end in
  match frac with
  | None => None
  | Some (mant, scale, s) =>
    let expo := match s with
                | String e r =>
                  if (e =? "e")%char || (e =? "E")%char then
                    let '(eneg, r) := match r with
                                      | String "-" r' => (true, r')
                                      | String "+" r' => (false, r')
                                      | _ => (false, r)
                                      end in
                    let '(x, k, r') := lex_digits r 0 0 in
                    if (k =? 0)%nat then None else Some (if eneg then - x else x, r')
                  else Some (0, s)
                | EmptyString => Some (0, s)
                end in
    match expo with
    | None => None
    | Some (x, s) =>
      let mant := if neg then - mant else mant in
      let e := x - scale in
      let q := if 0 <=? e then Qmake (mant * 10 ^ e) 1
               else Qmake mant (Z.to_pos (10 ^ (- e))) in
      Some (q, s)
    end
  end.

(** string body after the opening quote, up to the closing quote *)
Fixpoint lex_string (s : string) : option (string * string) :=
  match s with
  | EmptyString => None
  | String c r =>
    if (c =? "034")%char then Some (EmptyString, r)
    else if (nat_of_ascii c <? 32)%nat then None
    else if (c =? "\")%char then
      match r with
      | String e r' =>
        let esc := if (e =? "034")%char then Some e
                   else if (e =? "\")%char then Some e
                   else if (e =? "/")%char then Some e
                   else if (e =? "b")%char then Some "008"%char
                   else if (e =? "f")%char then Some "012"%char
                   else if (e =? "n")%char then Some "010"%char
                   else if (e =? "r")%char then Some "013"%char
                   else if (e =? "t")%char then Some "009"%char
                   else None in
        match esc with
        | Some d => match lex_string r' with
                    | Some (b, rest) => Some (String d b, rest)
                    | None => None
                    end
        | None => None
        end
      | EmptyString => None
      end
    else match lex_string r with
         | Some (b, rest) => Some (String c b, rest)
         | None => None
         end
  end.

Fixpoint parse_value (fuel : nat) (s : string) : option (json * string) :=
  match fuel with
  | O => None
  | S fuel =>
    let s := skip_ws s in
    match s with
    | String "{" r =>
      match skip_ws r with
      | String "}" r' => Some (JObj [], r')
      | _ => parse_members fuel r []
      end
    | String "[" r =>
      match skip_ws r with
      | String "]" r' => Some (JArr [], r')
      | _ => parse_elems fuel r []
      end
    | String "034" r =>
      match lex_string r with
      | Some (b, r') => Some (JStr b, r')
      | None => None
      end
    | _ =>
      match drop_prefix "null" s with
      | Some r => Some (JNull, r)
      | None =>
      match drop_prefix "true" s with
      | Some r => Some (JBool true, r)
      | None =>
      match drop_prefix "false" s with
      | Some r => Some (JBool false, r)
      | None =>
      match lex_number s with
      | Some (q, r) => Some (JNum q, r)
      | None => None
      end end end end
    end
  end
with parse_elems (fuel : nat) (s : string) (acc : list json) : option (json * string) :=
  match fuel with
  | O => None
  | S fuel =>
    match parse_value fuel s with
    | None => None
    | Some (v, r) =>
      match skip_ws r with
      | String "," r' => parse_elems fuel r' (v :: acc)
      | String "]" r' => Some (JArr (rev (v :: acc)), r')
      | _ => None
      end
    end
  end
with parse_members (fuel : nat) (s : string) (acc : list (string * json))
  : option (json * string) :=
  match fuel with
  | O => None
  | S fuel =>
    match skip_ws s with
    | String "034" r =>
      match lex_string r with
      | None => None
      | Some (k, r) =>
        match skip_ws r with
        | String ":" r =>
          match parse_value fuel r with
          | None => None
          | Some (v, r) =>
            match skip_ws r with
            | String "," r' => parse_members fuel r' ((k, v) :: acc)
            | String "}" r' => Some (JObj (rev ((k, v) :: acc)), r')
            | _ => None
            end
          end
        | _ => None
        end
      end
    | _ => None
    end
  end.

(** [document->Parse(json_string)]; [None] stands for [HasParseError()]. *)
Definition parse_json (text : string) : option json :=
  match parse_value (2 * length text + 2) text with
  | Some (v, rest) => match skip_ws rest with
                      | EmptyString => Some v
                      | _ => None
                      end
  | None => None
  end.


(* ------------------------------------------------------------------ *)
(** ** Path parsing *)

Definition invalid_path : JsonPath := mkJsonPath "" (-1) false.

(** identifier of a key step: every byte up to the next [.] or [[] *)
Fixpoint take_ident (s : string) : string * string :=
  match s with
  | String c r =>
    if (c =? ".")%char || (c =? "[")%char then (EmptyString, s)
    else let '(a, b) := take_ident r in (String c a, b)
  | EmptyString => (EmptyString, EmptyString)
  end.

(** bracket content up to the closing [ ]] *)
Fixpoint take_bracket (s : string) : option (string * string) :=
  match s with
  | EmptyString => None
  | String c r =>
    if (c =? "]")%char then Some (EmptyString, r)
    else match take_bracket r with
         | Some (a, b) => Some (String c a, b)
         | None => None
         end
  end.

Fixpoint all_digits (s : string) : bool :=
  match s with
  | EmptyString => true
  | String c r => is_digit c && all_digits r
  end.

(** a non-negative decimal integer that fits the [int idx] field *)
Definition parse_index (ds : string) : option Z :=
  if negb (String.eqb ds "") && all_digits ds then
    let v := fst (fst (lex_digits ds 0 0)) in
    if v <=? INT_MAX then Some v else None
  else None.

(** Modelled from the spec: the path parser, i.e. the splitting of the path
    expression and [JsonFunctions::get_parsed_paths], whose bodies are in
    json_functions.cpp, not among the sources.  Spec 4.1: a root marker [$],
    then steps [.ident] or [[n]]; an empty expression, a missing root marker,
    an unterminated bracket, non-numeric bracket content or an empty
    identifier produce a segment marked invalid, with [idx = -1]; a key step
    leaves [idx] unset (-1), an index step leaves the key empty.  The scan
    stops at the first invalid segment. *)
Fixpoint parse_steps (fuel : nat) (s : string) : list JsonPath :=
  match fuel with
  | O => []
  | S fuel =>
    match s with
    | EmptyString => []
    | String "." r =>
      let '(id, rest) := take_ident r in
      if String.eqb id "" then [invalid_path]
      else mkJsonPath id (-1) true :: parse_steps fuel rest
    | String "[" r =>
      match take_bracket r with
      | None => [invalid_path]
      | Some (ds, rest) =>
        match parse_index ds with
        | Some n => mkJsonPath "" n true :: parse_steps fuel rest
        | None => [invalid_path]
        end
      end
    | _ => [invalid_path]
    end
  end.

Definition parse_path (path : string) : list JsonPath :=
  match path with
  | String "$" r => parse_steps (S (length r)) r
  | _ => [invalid_path]
  end.

(* ------------------------------------------------------------------ *)
(** ** Navigation *)

Inductive nav_result := Found (v : json) | NotFound | TypeMismatch.

(** first occurrence wins *)
Fixpoint lookup_first (k : string) (ms : list (string * json)) : option json :=
  match ms with
  | [] => None
  | (k', v) :: ms => if String.eqb k k' then Some v else lookup_first k ms
  end.

(** Modelled from the spec: the document walk of
    [JsonFunctions::get_json_object] (json_functions.cpp, not among the
    sources), spec 4.2. *)
Fixpoint walk (v : json) (path : list JsonPath) : nav_result :=
  match path with
  | [] => Found v
  | seg :: rest =>
    if negb (is_valid seg) then NotFound
    else if 0 <=? idx seg then
      match v with
      | JArr l => match nth_error l (Z.to_nat (idx seg)) with
                  | Some x => walk x rest
                  | None => NotFound
                  end
      | _ => NotFound
      end
    else
      match v with
      | JObj ms => match lookup_first (key seg) ms with
                   | Some x => walk x rest
                   | None => NotFound
                   end
      | _ => TypeMismatch
      end
  end.

(** Modelled from the spec: "a ParsedPath is usable only if every contained
    segment is valid; a single invalid segment invalidates the whole path". *)
Definition navigate (root : json) (path : list JsonPath) : nav_result :=
  if forallb is_valid path then walk root path else NotFound.

(* ------------------------------------------------------------------ *)
(** ** Function context, path cache and entry points *)

(** [doris_udf::IntVal], [DoubleVal] (the double as an exact rational)
    and [StringVal]. *)
Record IntVal := mkIntVal { int_is_null : bool; int_val : Z }.
Record DoubleVal := mkDoubleVal { dbl_is_null : bool; dbl_val : Q }.
Record StringVal := mkStringVal { str_is_null : bool; str_val : string }.

Definition IntVal_null : IntVal := mkIntVal true 0.
Definition DoubleVal_null : DoubleVal := mkDoubleVal true 0.
Definition StringVal_null : StringVal := mkStringVal true "".

(** The part of [FunctionContext] the functions use: the value of the path
    argument when it is a literal constant, and the function state slot
    holding the cached parsed path. *)
Record FunctionContext := mkFunctionContext {
  ctx_const_path : option string;
  ctx_state : option (list JsonPath)
}.

(** Modelled from the spec (4.4): [json_path_prepare]; a constant path
    argument is parsed once and stored in the context's state. *)
Definition json_path_prepare (ctx : FunctionContext) (scope : FunctionStateScope)
  : FunctionContext :=
  match ctx_const_path ctx with
  | Some p => mkFunctionContext (ctx_const_path ctx) (Some (parse_path p))
  | None => ctx
  end.

(** Modelled from the spec (4.4): [json_path_close] releases the state. *)
Definition json_path_close (ctx : FunctionContext) (scope : FunctionStateScope)
  : FunctionContext :=
  mkFunctionContext (ctx_const_path ctx) None.

(** Modelled from the spec (4.3 steps 1-3): [get_json_object]; [None] is the
    null [rapidjson::Value*]. *)
Definition get_json_object (ctx : FunctionContext) (json_string path_string : string)
  (fntype : JsonFunctionType) : option json :=
  let paths := match ctx_state ctx with
               | Some cached => cached
               | None => parse_path path_string
               end in
  match parse_json json_string with
  | None => None
  | Some doc => match navigate doc paths with
                | Found v => Some v
                | _ => None
                end
  end.

(** a JSON number representable as an [int] *)
Definition as_int (q : Q) : option Z :=
  if Z.modulo (Qnum q) (Zpos (Qden q)) =? 0 then
    let z := Z.div (Qnum q) (Zpos (Qden q)) in
    if (INT_MIN <=? z) && (z <=? INT_MAX) then Some z else None
  else None.

(** Modelled from the spec (4.3 step 4): the three entry points. *)
Definition get_json_int (ctx : FunctionContext) (json_str path : string) : IntVal :=
  match get_json_object ctx json_str path JSON_FUN_INT with
  | Some (JNum q) => match as_int q with
                     | Some z => mkIntVal false z
                     | None => IntVal_null
                     end
  | _ => IntVal_null
  end.

Definition get_json_double (ctx : FunctionContext) (json_str path : string) : DoubleVal :=
  match get_json_object ctx json_str path JSON_FUN_DOUBLE with
  | Some (JNum q) => mkDoubleVal false q
  | _ => DoubleVal_null
  end.

Definition get_json_string (ctx : FunctionContext) (json_str path : string) : StringVal :=
  match get_json_object ctx json_str path JSON_FUN_STRING with
  | Some (JStr s) => mkStringVal false s
  | _ => StringVal_null
  end.

(** [extract(j, p, type)] of the spec: the entry point of [type]. *)
Inductive ScalarVal :=
| SInt (v : IntVal) | SDouble (v : DoubleVal) | SString (v : StringVal).

Definition extract (ctx : FunctionContext) (j p : string) (ty : JsonFunctionType)
  : ScalarVal :=
  match ty with
  | JSON_FUN_INT => SInt (get_json_int ctx j p)
  | JSON_FUN_DOUBLE => SDouble (get_json_double ctx j p)
  | JSON_FUN_STRING => SString (get_json_string ctx j p)
  end.

Definition scalar_is_null (v : ScalarVal) : bool :=
  match v with
  | SInt v => int_is_null v
  | SDouble v => dbl_is_null v
  | SString v => str_is_null v
  end.

(** A row-level call as a step on the context: the call reads the cache and
    leaves the context as it was. *)
Definition extract_call (ctx : FunctionContext) (j p : string) (ty : JsonFunctionType)
  : ScalarVal * FunctionContext :=
  (extract ctx j p ty, ctx).

(** the cache of [ctx], if any, holds the parse of [p] *)
Definition cache_for (ctx : FunctionContext) (p : string) : Prop :=
  forall cached, ctx_state ctx = Some cached -> cached = parse_path p.

(** The spec's coercion table (4.3 step 4): the node's JSON type matches
    the target type, and the value then returned. *)
Definition coerce_spec (v : json) (ty : JsonFunctionType) : option ScalarVal :=
  match ty, v with
  | JSON_FUN_INT, JNum q =>
      match as_int q with Some z => Some (SInt (mkIntVal false z)) | None => None end
  | JSON_FUN_DOUBLE, JNum q => Some (SDouble (mkDoubleVal false q))
  | JSON_FUN_STRING, JStr s => Some (SString (mkStringVal false s))
  | _, _ => None
  end.

(** JSON texts of the examples, written with ['] for the double quote *)
Fixpoint json_text (s : string) : string :=
  match s with
  | EmptyString => EmptyString
  | String c r => String (if (c =? "'")%char then "034"%char else c) (json_text r)
  end.

Definition ctx0 : FunctionContext := mkFunctionContext None None.

(** the Null result of the entry point of [ty] *)
Definition null_of (ty : JsonFunctionType) : ScalarVal :=
  match ty with
  | JSON_FUN_INT => SInt IntVal_null
  | JSON_FUN_DOUBLE => SDouble DoubleVal_null
  | JSON_FUN_STRING => SString StringVal_null
  end.

(** ** The path grammar of the spec (4.1), for stating the parser's
    edge-case policy *)

Fixpoint has_char (c : ascii) (s : string) : bool :=
  match s with
  | EmptyString => false
  | String d r => (d =? c)%char || has_char c r
  end.

(** a well-formed step: [.ident] or [[digits]] *)
Inductive step := KeyStep (id : string) | IdxStep (ds : string).

Definition render_step (st : step) : string :=
  match st with
  | KeyStep id => "." ++ id
  | IdxStep ds => "[" ++ ds ++ "]"
  end.

Fixpoint render_steps (w : list step) : string :=
  match w with
  | [] => ""
  | st :: w => render_step st ++ render_steps w
  end.

Definition step_ok (st : step) : bool :=
  match st with
  | KeyStep id => negb (String.eqb id "") && negb (has_char "." id) && negb (has_char "[" id)
  | IdxStep ds => negb (String.eqb ds "") && all_digits ds && (fst (fst (lex_digits ds 0 0)) <=? INT_MAX)
  end.

(** the malformed steps the spec lists: an unterminated bracket, an empty,
    non-numeric or negative bracket content, an empty identifier *)
Inductive malformed_step : string -> Prop :=
| bad_unterminated r :
    has_char "]" r = false -> malformed_step ("[" ++ r)
| bad_index c r :
    has_char "]" c = false -> (c = "" \/ all_digits c = false) ->
    malformed_step ("[" ++ c ++ "]" ++ r)
| bad_empty_ident r :
    (r = "" \/ exists r', r = "." ++ r' \/ r = "[" ++ r') ->
    malformed_step ("." ++ r).

Definition has_invalid_segment (segs : list JsonPath) : Prop :=
  exists seg, In seg segs /\ is_valid seg = false /\ idx seg = -1.

(** the state of a context after [json_path_prepare] has cached [p] *)
Definition prepared_ctx (p : string) : FunctionContext :=
  json_path_prepare (mkFunctionContext (Some p) None) FRAGMENT_LOCAL.


(* ================================================================== *)
(** * Theorems *)

(** ** Extraction through the cache *)

Lemma null_of_is_null ty : scalar_is_null (null_of ty) = true.
Proof. destruct ty; reflexivity. Qed.

Lemma get_json_object_cached ctx j p ty :
  cache_for ctx p ->
  get_json_object ctx j p ty =
  match parse_json j with
  | None => None
  | Some doc => match navigate doc (parse_path p) with
                | Found v => Some v
                | _ => None
                end
  end.
Proof.
  intros H. unfold get_json_object.
  destruct (ctx_state ctx) as [c|] eqn:E; [rewrite (H c E)|]; reflexivity.
Qed.

Lemma extract_via_object ctx j p ty :
  extract ctx j p ty =
  match get_json_object ctx j p ty with
  | Some v => match coerce_spec v ty with Some r => r | None => null_of ty end
  | None => null_of ty
  end.
Proof.
  destruct ty; simpl;
    [unfold get_json_int | unfold get_json_double | unfold get_json_string];
    destruct (get_json_object _ _ _ _) as [v|]; try reflexivity;
    destruct v; try reflexivity; simpl.
  destruct (as_int q); reflexivity.
Qed.

Lemma extract_cached ctx j p ty :
  cache_for ctx p ->
  extract ctx j p ty =
  match parse_json j with
  | None => null_of ty
  | Some doc => match navigate doc (parse_path p) with
                | Found v => match coerce_spec v ty with Some r => r | None => null_of ty end
                | _ => null_of ty
                end
  end.
Proof.
  intros H. rewrite extract_via_object, (get_json_object_cached _ _ _ _ H).
  destruct (parse_json j); [|reflexivity].
  destruct (navigate _ _); reflexivity.
Qed.

(** ** Navigation *)

Lemma navigate_invalid root path :
  existsb (fun seg => negb (is_valid seg)) path = true -> navigate root path = NotFound.
Proof.
  intros H. unfold navigate.
  destruct (forallb is_valid path) eqn:E; [|reflexivity].
  exfalso. induction path as [|seg path IH]; [discriminate|].
  simpl in H, E. apply andb_true_iff in E as [E1 E2].
  rewrite E1 in H. simpl in H. auto.
Qed.

Lemma walk_app root pre rest :
  walk root (pre ++ rest) =
  match walk root pre with Found v => walk v rest | r => r end.
Proof.
  revert root. induction pre as [|seg pre IH]; intros root; [reflexivity|].
  simpl. destruct (negb (is_valid seg)); [reflexivity|].
  destruct (0 <=? idx seg); destruct root; try reflexivity.
  - destruct (nth_error _ _); [apply IH|reflexivity].
  - destruct (lookup_first _ _); [apply IH|reflexivity].
Qed.

(** ** Path parsing *)

Lemma lex_digits_nonneg s acc n :
  0 <= acc -> 0 <= fst (fst (lex_digits s acc n)).
Proof.
  revert acc n. induction s as [|c s IH]; intros acc n Hacc; simpl; [exact Hacc|].
  destruct (is_digit c) eqn:D; [|exact Hacc].
  apply IH. unfold is_digit, digit_val in *.
  apply andb_true_iff in D as [D _]. apply Nat.leb_le in D. lia.
Qed.

Lemma parse_index_nonneg ds n : parse_index ds = Some n -> 0 <= n.
Proof.
  unfold parse_index. destruct (_ && _); [|discriminate].
  destruct (_ <=? INT_MAX); intros H; inversion H; subst.
  apply lex_digits_nonneg; lia.
Qed.

(** every segment the parser returns is the invalid one, a key step or an
    index step *)
Lemma parse_steps_shape fuel s seg :
  In seg (parse_steps fuel s) ->
  seg = invalid_path \/
  (exists id, id <> "" /\ seg = mkJsonPath id (-1) true) \/
  (exists n, 0 <= n /\ seg = mkJsonPath "" n true).
Proof.
  revert s. induction fuel as [|fuel IH]; intros s Hin; [destruct Hin|].
  simpl in Hin. destruct s as [|c r]; [destruct Hin|].
  destruct (Ascii.eqb c ".") eqn:Edot.
  { apply Ascii.eqb_eq in Edot; subst c. destruct (take_ident r) as [id rest].
    destruct (String.eqb id "") eqn:Eid.
    - destruct Hin as [<-|[]]. now left.
    - destruct Hin as [<-|Hin]; [|now apply (IH rest)].
      right; left. exists id. split; [|reflexivity].
      intros ->. discriminate. }
  destruct (Ascii.eqb c "[") eqn:Ebr.
  { apply Ascii.eqb_eq in Ebr; subst c. destruct (take_bracket r) as [[ds rest]|].
    - destruct (parse_index ds) as [n|] eqn:Ei.
      + destruct Hin as [<-|Hin]; [|now apply (IH rest)].
        right; right. exists n. split; [|reflexivity]. now apply (parse_index_nonneg ds).
      + destruct Hin as [<-|[]]. now left.
    - destruct Hin as [<-|[]]. now left. }
  assert (Hin' : In seg [invalid_path]).
  { destruct c as [b0 b1 b2 b3 b4 b5 b6 b7].
    destruct b0, b1, b2, b3, b4, b5, b6, b7; try exact Hin; discriminate. }
  destruct Hin' as [<-|[]]. now left.
Qed.

Lemma parse_path_shape p seg :
  In seg (parse_path p) ->
  seg = invalid_path \/
  (exists id, id <> "" /\ seg = mkJsonPath id (-1) true) \/
  (exists n, 0 <= n /\ seg = mkJsonPath "" n true).
Proof.
  unfold parse_path. intros Hin.
  destruct p as [|c r]; [destruct Hin as [<-|[]]; now left|].
  destruct (Ascii.eqb c "$") eqn:E.
  - apply Ascii.eqb_eq in E; subst c. exact (parse_steps_shape _ _ _ Hin).
  - assert (Hin' : In seg [invalid_path]).
    { destruct c as [b0 b1 b2 b3 b4 b5 b6 b7].
      destruct b0, b1, b2, b3, b4, b5, b6, b7; try exact Hin; discriminate. }
    destruct Hin' as [<-|[]]. now left.
Qed.

Lemma string_app_assoc (a b c : string) : (a ++ b) ++ c = a ++ (b ++ c).
Proof. induction a as [|ch a IH]; simpl; [reflexivity | now rewrite IH]. Qed.

Lemma take_ident_delim id rest :
  has_char "." id = false -> has_char "[" id = false ->
  (rest = "" \/ exists r', rest = "." ++ r' \/ rest = "[" ++ r') ->
  take_ident (id ++ rest) = (id, rest).
Proof.
  intros H1 H2 Hr. induction id as [|c id IH]; simpl.
  - destruct Hr as [->|[r' [->| ->]]]; reflexivity.
  - simpl in H1, H2. apply orb_false_iff in H1 as [H1 H1'].
    apply orb_false_iff in H2 as [H2 H2'].
    rewrite H1, H2. simpl. now rewrite IH.
Qed.

Lemma take_bracket_app c r :
  has_char "]" c = false -> take_bracket (c ++ String "]" r) = Some (c, r).
Proof.
  intros H. induction c as [|ch c IH]; [reflexivity|].
  simpl in H |- *. apply orb_false_iff in H as [H1 H2].
  rewrite H1, IH by exact H2. reflexivity.
Qed.

Lemma take_bracket_none r : has_char "]" r = false -> take_bracket r = None.
Proof.
  intros H. induction r as [|ch r IH]; [reflexivity|].
  simpl in H |- *. apply orb_false_iff in H as [H1 H2].
  now rewrite H1, IH.
Qed.

Lemma all_digits_no_bracket ds : all_digits ds = true -> has_char "]" ds = false.
Proof.
  induction ds as [|c ds IH]; [reflexivity|]. simpl.
  intros H. apply andb_true_iff in H as [H1 H2]. rewrite IH by exact H2.
  destruct (Ascii.eqb c "]") eqn:E; [|reflexivity].
  apply Ascii.eqb_eq in E; subst c. discriminate.
Qed.

Lemma malformed_first_step k bad :
  malformed_step bad -> parse_steps (S k) bad = [invalid_path].
Proof.
  intros Hm. destruct Hm as [r Hr | c r Hc Hbad | r Hr]; simpl.
  - now rewrite take_bracket_none.
  - rewrite take_bracket_app by exact Hc. unfold parse_index.
    destruct Hbad as [->|Hbad]; [reflexivity|].
    rewrite Hbad, andb_false_r. reflexivity.
  - replace r with ("" ++ r) by reflexivity.
    rewrite take_ident_delim by (reflexivity || exact Hr). reflexivity.
Qed.

Lemma render_steps_delim w :
  render_steps w = "" \/ exists r', render_steps w = "." ++ r' \/ render_steps w = "[" ++ r'.
Proof.
  destruct w as [|[id|ds] w]; simpl; [now left| |]; right; eauto.
Qed.

Lemma string_length_app (a b : string) : length (a ++ b) = (length a + length b)%nat.
Proof. induction a as [|c a IH]; simpl; [reflexivity | now rewrite IH]. Qed.

Lemma parse_path_no_root c r : c <> "$"%char -> parse_path (String c r) = [invalid_path].
Proof.
  intros Hc. destruct c as [b0 b1 b2 b3 b4 b5 b6 b7].
  destruct b0, b1, b2, b3, b4, b5, b6, b7; try reflexivity.
  exfalso; apply Hc; reflexivity.
Qed.

Lemma malformed_delim bad :
  malformed_step bad -> exists r', bad = "." ++ r' \/ bad = "[" ++ r'.
Proof. intros Hm; destruct Hm; eauto. Qed.

Lemma cache_for_none p c : ctx_state c = None -> cache_for c p.
Proof. intros H cached E. congruence. Qed.

(** parsing well-formed steps followed by a delimited rest *)
Lemma parse_steps_render n w rest :
  forallb step_ok w = true ->
  (rest = "" \/ exists r', rest = "." ++ r' \/ rest = "[" ++ r') ->
  (length (render_steps w ++ rest) < n)%nat ->
  exists pre k, Forall (fun seg => is_valid seg = true) pre /\
    parse_steps n (render_steps w ++ rest) = (pre ++ parse_steps (S k) rest)%list.
Proof.
  revert n. induction w as [|st w IH]; intros n Hok Hrest Hlen.
  - simpl in Hlen |- *. destruct n as [|k]; [lia|].
    exists [], k. split; [constructor | reflexivity].
  - simpl in Hok. apply andb_true_iff in Hok as [Hst Hw].
    destruct n as [|n]; [lia|].
    simpl in Hlen. rewrite string_app_assoc, string_length_app in Hlen.
    assert (Hdelim : render_steps w ++ rest = "" \/ exists r',
              render_steps w ++ rest = "." ++ r' \/ render_steps w ++ rest = "[" ++ r').
    { destruct (render_steps_delim w) as [->|[r' [-> | ->]]]; simpl; auto; right; eauto. }
    destruct (IH n Hw Hrest) as [pre [k [Hpre Heq]]].
    { destruct st; simpl in Hlen |- *;
        [|rewrite string_length_app in Hlen; simpl in Hlen]; lia. }
    destruct st as [id|ds]; simpl in Hst |- *.
    + apply andb_true_iff in Hst as [Hst H3]. apply andb_true_iff in Hst as [H1 H2].
      apply negb_true_iff in H1, H2, H3.
      rewrite string_app_assoc, take_ident_delim by assumption.
      rewrite H1, Heq. exists (mkJsonPath id (-1) true :: pre), k.
      split; [constructor; [reflexivity|exact Hpre] | reflexivity].
    + apply andb_true_iff in Hst as [Hst H3]. apply andb_true_iff in Hst as [H1 H2].
      rewrite !string_app_assoc. simpl.
      rewrite take_bracket_app by (now apply all_digits_no_bracket).
      unfold parse_index. rewrite H1, H2, H3. simpl.
      rewrite Heq. exists (mkJsonPath "" (fst (fst (lex_digits ds 0 0))) true :: pre), k.
      split; [constructor; [reflexivity|exact Hpre] | reflexivity].
Qed.


(** C10: [debug_string] returns ["key: "] followed by the key, [", idx: "]
    followed by the decimal rendering of [idx], [", valid: "] followed by
    [1] or [0] for [is_valid], and leaves the three fields unchanged. *)
Theorem debug_string_format :
  (forall p : JsonPath,
    debug_string p =
      ("key: " ++ key p ++ ", idx: " ++ int_decimal (idx p) ++ ", valid: "
         ++ (if is_valid p then "1" else "0"), p))
  /\ fst (debug_string (mkJsonPath "a" (-1) true)) = "key: a, idx: -1, valid: 1"
  /\ fst (debug_string (mkJsonPath "" 12 false)) = "key: , idx: 12, valid: 0".
Proof.
  split; [|split; reflexivity].
  intros [k i b].
  unfold debug_string, ss_str, ss_put_bool, ss_put_int, ss_put_string, ss_empty.
  cbn [ss_buf key idx is_valid].
  rewrite !string_app_assoc. reflexivity.
Qed.

Example parse_json_ex1 :
  parse_json (json_text "{'a':{'b':3}}") = Some (JObj [("a", JObj [("b", JNum (3 # 1))])]).
Proof. reflexivity. Qed.
Example parse_json_ex2 :
  parse_json (json_text " [1, -2.5e1, true, null, 'x\ny'] ") =
  Some (JArr [JNum (1#1); JNum ((-25)#1); JBool true; JNull;
              JStr (String "x" (String "010" "y"))]).
Proof. reflexivity. Qed.
Example parse_json_ex3 : parse_json "not json" = None.
Proof. reflexivity. Qed.

Example ex3 : extract ctx0 (json_text "{'a':'x'}") "$.a" JSON_FUN_STRING = SString (mkStringVal false "x").
Proof. reflexivity. Qed.
Example ex4 : scalar_is_null (extract ctx0 (json_text "{'a':1}") "$.a" JSON_FUN_STRING) = true.
Proof. reflexivity. Qed.
Example pp1 : parse_path "$.a[0].b" = [mkJsonPath "a" (-1) true; mkJsonPath "" 0 true; mkJsonPath "b" (-1) true].
Proof. reflexivity. Qed.
Example pp2 : parse_path "$.a[-1]" = [mkJsonPath "a" (-1) true; invalid_path].
Proof. reflexivity. Qed.

(** C1: when the JSON text parses, the (valid) path navigates to a node and
    that node's JSON type matches the requested type, [extract] returns
    exactly that node's value; two concrete instances from the spec. *)
Theorem extract_returns_value :
  (forall ctx j p ty doc v r,
     cache_for ctx p ->
     forallb is_valid (parse_path p) = true ->
     parse_json j = Some doc ->
     navigate doc (parse_path p) = Found v ->
     coerce_spec v ty = Some r ->
     extract ctx j p ty = r)
  /\ extract ctx0 (json_text "{'a':{'b':3}}") "$.a.b" JSON_FUN_INT = SInt (mkIntVal false 3)
  /\ extract ctx0 (json_text "{'a':[10,20,30]}") "$.a[1]" JSON_FUN_INT = SInt (mkIntVal false 20).
Proof.
  split; [|split; reflexivity].
  intros ctx j p ty doc v r Hc _ Hj Hn Hv.
  rewrite (extract_cached _ _ _ _ Hc), Hj, Hn, Hv. reflexivity.
Qed.

Lemma extract_returns_value_witness :
  extract ctx0 (json_text "{'a':{'b':3}}") "$.a.b" JSON_FUN_INT = SInt (mkIntVal false 3).
Proof.
  apply (proj1 extract_returns_value ctx0 _ _ _
           (JObj [("a", JObj [("b", JNum (3 # 1))])]) (JNum (3 # 1))).
  - apply cache_for_none; reflexivity.
  - reflexivity.
  - reflexivity.
  - reflexivity.
  - reflexivity.
Defined.

(** C2: [extract] is Null when the JSON text does not parse, when the path
    has an invalid segment, when navigation finds no node, or when the node's
    type does not match the requested type; the result is a value in every
    case, never an error. *)
Theorem extract_null_on_failure :
  forall ctx j p ty,
    cache_for ctx p ->
    (parse_json j = None
     \/ existsb (fun seg => negb (is_valid seg)) (parse_path p) = true
     \/ (exists doc, parse_json j = Some doc /\ forall v, navigate doc (parse_path p) <> Found v)
     \/ (exists doc v, parse_json j = Some doc /\ navigate doc (parse_path p) = Found v
                       /\ coerce_spec v ty = None)) ->
    scalar_is_null (extract ctx j p ty) = true.
Proof.
  intros ctx j p ty Hc Hfail. rewrite (extract_cached _ _ _ _ Hc).
  destruct Hfail as [Hj | [Hinv | [[doc [Hj Hn]] | [doc [v [Hj [Hn Hv]]]]]]].
  - rewrite Hj. apply null_of_is_null.
  - destruct (parse_json j); [|apply null_of_is_null].
    rewrite navigate_invalid by exact Hinv. apply null_of_is_null.
  - rewrite Hj. destruct (navigate doc (parse_path p)) eqn:E; try apply null_of_is_null.
    exfalso. exact (Hn v eq_refl).
  - rewrite Hj, Hn, Hv. apply null_of_is_null.
Qed.

Lemma extract_null_on_failure_witness :
  scalar_is_null (extract ctx0 "not json" "$.a" JSON_FUN_INT) = true.
Proof.
  apply extract_null_on_failure.
  - apply cache_for_none; reflexivity.
  - left; reflexivity.
Defined.

(** C3: the integer entry point is non-Null only on a JSON number equal to an
    [int]; the string entry point is non-Null only on a JSON string, whose
    characters it returns; a resolved JSON [null] gives Null for every type. *)
Theorem coercion_rules :
  (forall ctx j p,
     int_is_null (get_json_int ctx j p) = false ->
     exists q, get_json_object ctx j p JSON_FUN_INT = Some (JNum q)
       /\ Qnum q = int_val (get_json_int ctx j p) * Zpos (Qden q)
       /\ INT_MIN <= int_val (get_json_int ctx j p) <= INT_MAX)
  /\ (forall ctx j p,
     str_is_null (get_json_string ctx j p) = false ->
     get_json_object ctx j p JSON_FUN_STRING = Some (JStr (str_val (get_json_string ctx j p))))
  /\ (forall ctx j p ty,
     get_json_object ctx j p ty = Some JNull -> scalar_is_null (extract ctx j p ty) = true)
  /\ scalar_is_null (extract ctx0 (json_text "{'a':1}") "$.a" JSON_FUN_STRING) = true.
Proof.
  split; [|split; [|split]].
  - intros ctx j p. unfold get_json_int.
    destruct (get_json_object ctx j p JSON_FUN_INT) as [[| | q | | |]|];
      simpl; try discriminate.
    unfold as_int. destruct (Qnum q mod Z.pos (Qden q) =? 0) eqn:Em; [|discriminate].
    destruct (_ && _) eqn:Er; [|discriminate]. intros _. simpl.
    exists q. split; [reflexivity|]. split.
    + apply Z.eqb_eq in Em. rewrite Z.mul_comm. apply Z.div_exact; [lia|exact Em].
    + apply andb_true_iff in Er as [E1 E2]. apply Z.leb_le in E1, E2. lia.
  - intros ctx j p. unfold get_json_string.
    destruct (get_json_object ctx j p JSON_FUN_STRING) as [[| | | s | |]|];
      simpl; try discriminate. reflexivity.
  - intros ctx j p ty H. rewrite extract_via_object, H.
    destruct ty; reflexivity.
  - reflexivity.
Qed.

Lemma coercion_rules_witness :
  scalar_is_null (extract ctx0 (json_text "{'a':null}") "$.a" JSON_FUN_DOUBLE) = true.
Proof. apply (proj1 (proj2 (proj2 coercion_rules))). reflexivity. Defined.

(** C4: the parser is total; an invalid segment always records [idx = -1];
    an empty expression or a missing root marker gives an invalid segment;
    after any well-formed steps, an unterminated bracket, an empty,
    non-numeric or negative bracket content, or an empty identifier makes
    the parser end the sequence with an invalid segment. *)
Theorem parse_path_marks_invalid :
  (forall s seg, In seg (parse_path s) -> is_valid seg = false -> idx seg = -1)
  /\ has_invalid_segment (parse_path "")
  /\ (forall c r, c <> "$"%char -> has_invalid_segment (parse_path (String c r)))
  /\ (forall w bad,
        forallb step_ok w = true -> malformed_step bad ->
        exists pre, parse_path ("$" ++ render_steps w ++ bad) = (pre ++ [invalid_path])%list
          /\ Forall (fun seg => is_valid seg = true) pre).
Proof.
  split; [|split; [|split]].
  - intros s seg Hin Hv.
    destruct (parse_path_shape _ _ Hin) as [-> | [[id [_ ->]] | [n [_ ->]]]];
      [reflexivity | discriminate | discriminate].
  - exists invalid_path. split; [left; reflexivity | split; reflexivity].
  - intros c r Hc. rewrite parse_path_no_root by exact Hc.
    exists invalid_path. split; [left; reflexivity | split; reflexivity].
  - intros w bad Hw Hm. unfold parse_path. cbn [append].
    destruct (malformed_delim _ Hm) as [r' Hr'].
    destruct (parse_steps_render (S (length (render_steps w ++ bad))) w bad Hw)
      as [pre [k [Hpre Heq]]]; [right; eauto | lia |].
    rewrite Heq, (malformed_first_step _ _ Hm). exists pre. split; [reflexivity | exact Hpre].
Qed.

Lemma parse_path_marks_invalid_witness :
  exists pre, parse_path "$.a[-1]" = (pre ++ [invalid_path])%list
    /\ Forall (fun seg => is_valid seg = true) pre.
Proof.
  apply (proj2 (proj2 (proj2 parse_path_marks_invalid)) [KeyStep "a"] "[-1]").
  - reflexivity.
  - exact (bad_index "-1" "" eq_refl (or_intror eq_refl)).
Defined.

(** C5: every parsed segment is a key step or an index step, never both;
    and a path with an invalid segment navigates to NotFound on every
    document. *)
Theorem segment_invariant :
  (forall p seg, In seg (parse_path p) ->
     ~ (key seg <> "" /\ 0 <= idx seg)
     /\ (is_valid seg = true ->
         (key seg <> "" /\ idx seg = -1) \/ (key seg = "" /\ 0 <= idx seg)))
  /\ (forall doc path, existsb (fun seg => negb (is_valid seg)) path = true ->
        navigate doc path = NotFound).
Proof.
  split; [|exact navigate_invalid].
  intros p seg Hin.
  destruct (parse_path_shape _ _ Hin) as [-> | [[id [Hid ->]] | [n [Hn ->]]]]; simpl.
  - split; [intros [H _]; exact (H eq_refl) | discriminate].
  - split; [intros [_ H]; lia | auto].
  - split; [intros [H _]; exact (H eq_refl) | auto].
Qed.

Lemma segment_invariant_witness : navigate JNull [invalid_path] = NotFound.
Proof. apply (proj2 segment_invariant). reflexivity. Defined.

(** C6: for a constant path expression, extraction with the path cached by
    [json_path_prepare] gives the same result as extraction that parses the
    expression on the call. *)
Theorem cache_transparent :
  forall ctx scope p j ty,
    ctx_const_path ctx = Some p ->
    extract (json_path_prepare ctx scope) j p ty = extract (mkFunctionContext (Some p) None) j p ty.
Proof.
  intros ctx scope p j ty Hp.
  assert (Hc : cache_for (json_path_prepare ctx scope) p).
  { unfold json_path_prepare. rewrite Hp. intros cached E. simpl in E. congruence. }
  rewrite (extract_cached _ _ _ _ Hc), (extract_cached _ _ _ _ (cache_for_none p (mkFunctionContext (Some p) None) eq_refl)).
  reflexivity.
Qed.

Lemma cache_transparent_witness :
  extract (prepared_ctx "$.a") (json_text "{'a':1}") "$.a" JSON_FUN_INT
  = extract (mkFunctionContext (Some "$.a") None) (json_text "{'a':1}") "$.a" JSON_FUN_INT.
Proof. apply cache_transparent. reflexivity. Defined.

(** C7: an index step succeeds only on an array whose length exceeds the
    index, taking that element; on a non-array node or an index past the end
    navigation ends in NotFound; e.g. [$.a[5]] on [{"a":[1,2]}] is Null. *)
Theorem index_step_bounds :
  (forall root pre seg rest r,
     0 <= idx seg ->
     navigate root (pre ++ seg :: rest)%list = Found r ->
     exists l x, walk root pre = Found (JArr l)
       /\ 0 <= idx seg < Z.of_nat (List.length l)
       /\ nth_error l (Z.to_nat (idx seg)) = Some x
       /\ walk x rest = Found r)
  /\ (forall root pre seg rest v,
     0 <= idx seg ->
     walk root pre = Found v ->
     ((forall l, v <> JArr l) \/ (exists l, v = JArr l /\ Z.of_nat (List.length l) <= idx seg)) ->
     navigate root (pre ++ seg :: rest)%list = NotFound)
  /\ scalar_is_null (extract ctx0 (json_text "{'a':[1,2]}") "$.a[5]" JSON_FUN_INT) = true.
Proof.
  split; [|split; [|reflexivity]].
  - intros root pre seg rest r Hi Hn. unfold navigate in Hn.
    destruct (forallb is_valid (pre ++ seg :: rest)%list) eqn:Ev; [|discriminate].
    rewrite forallb_app in Ev. apply andb_true_iff in Ev as [_ Ev].
    simpl in Ev. apply andb_true_iff in Ev as [Hv _].
    rewrite walk_app in Hn.
    destruct (walk root pre) as [v| |]; try discriminate.
    simpl in Hn. rewrite Hv in Hn. simpl in Hn.
    apply Z.leb_le in Hi as Hi'. rewrite Hi' in Hn.
    destruct v as [| | | |l|]; try discriminate.
    destruct (nth_error l (Z.to_nat (idx seg))) as [x|] eqn:Ex; [|discriminate].
    exists l, x. repeat split; try assumption; try reflexivity.
    assert (Hlt : (Z.to_nat (idx seg) < List.length l)%nat)
      by (apply nth_error_Some; congruence).
    lia.
  - intros root pre seg rest v Hi Hw Hbad. unfold navigate.
    destruct (forallb is_valid (pre ++ seg :: rest)%list) eqn:Ev; [|reflexivity].
    rewrite forallb_app in Ev. apply andb_true_iff in Ev as [_ Ev].
    simpl in Ev. apply andb_true_iff in Ev as [Hv _].
    rewrite walk_app, Hw. simpl. rewrite Hv. simpl.
    apply Z.leb_le in Hi as Hi'. rewrite Hi'.
    destruct Hbad as [Hna | [l [-> Hlen]]].
    + destruct v; try reflexivity. exfalso. exact (Hna elems eq_refl).
    + replace (nth_error l (Z.to_nat (idx seg))) with (@None json); [reflexivity|].
      symmetry. apply nth_error_None. lia.
Qed.

Lemma index_step_bounds_witness :
  navigate (JObj [("a", JArr [JNum (1 # 1); JNum (2 # 1)])])
    ([mkJsonPath "a" (-1) true] ++ [mkJsonPath "" 5 true])%list = NotFound.
Proof.
  apply (proj1 (proj2 index_step_bounds) _ _ _ _ (JArr [JNum (1 # 1); JNum (2 # 1)])).
  - simpl; lia.
  - reflexivity.
  - right. exists [JNum (1 # 1); JNum (2 # 1)]. split; [reflexivity | simpl; lia].
Defined.

(** C8: the path [$] (root marker, no steps) resolves to the document root,
    so its object lookup returns the parsed document itself. *)
Theorem root_path_resolves_root :
  (forall doc, navigate doc (parse_path "$") = Found doc)
  /\ (forall ctx j ty, cache_for ctx "$" -> get_json_object ctx j "$" ty = parse_json j).
Proof.
  split; [reflexivity|].
  intros ctx j ty Hc. rewrite (get_json_object_cached _ _ _ _ Hc).
  destruct (parse_json j); reflexivity.
Qed.

Lemma root_path_resolves_root_witness :
  get_json_object ctx0 "[1]" "$" JSON_FUN_INT = parse_json "[1]".
Proof.
  apply (proj2 root_path_resolves_root). apply cache_for_none; reflexivity.
Defined.

(** C9: two successive calls with the same arguments against an unchanged
    cache return the same result (value and null flag), and leave the
    context as it was. *)
Theorem extract_idempotent :
  forall ctx j p ty,
    fst (extract_call (snd (extract_call ctx j p ty)) j p ty) = fst (extract_call ctx j p ty)
    /\ snd (extract_call (snd (extract_call ctx j p ty)) j p ty) = ctx
    /\ scalar_is_null (fst (extract_call (snd (extract_call ctx j p ty)) j p ty))
       = scalar_is_null (fst (extract_call ctx j p ty)).
Proof. intros; repeat split; reflexivity. Qed.

(** ** The debug string determines the segment *)

Lemma string_app_cancel_len (a1 a2 c1 c2 : string) :
  a1 ++ c1 = a2 ++ c2 -> length c1 = length c2 -> a1 = a2 /\ c1 = c2.
Proof.
  intros E L.
  assert (La : length a1 = length a2).
  { apply (f_equal length) in E. rewrite !string_length_app in E. lia. }
  clear L. revert a2 La E. induction a1 as [|x a1 IH]; intros [|y a2] La E;
    simpl in La; try discriminate; [split; [reflexivity | exact E]|].
  simpl in E. injection E as -> E.
  destruct (IH a2 ltac:(lia) E) as [-> ->]. split; reflexivity.
Qed.

Lemma string_split_first_comma (a1 a2 r1 r2 : string) :
  has_char "," a1 = false -> has_char "," a2 = false ->
  a1 ++ String "," r1 = a2 ++ String "," r2 -> a1 = a2 /\ r1 = r2.
Proof.
  revert a2. induction a1 as [|x a1 IH]; intros [|y a2] H1 H2 E; simpl in *.
  - injection E as ->. split; reflexivity.
  - injection E as <- _. rewrite Ascii.eqb_refl in H2. discriminate.
  - injection E as -> _. rewrite Ascii.eqb_refl in H1. discriminate.
  - apply orb_false_iff in H1 as [_ H1]. apply orb_false_iff in H2 as [_ H2].
    injection E as -> E. destruct (IH a2 H1 H2 E) as [-> ->]. split; reflexivity.
Qed.

Lemma int_decimal_inj (z1 z2 : Z) : int_decimal z1 = int_decimal z2 -> z1 = z2.
Proof.
  unfold int_decimal. intros E.
  apply (f_equal NilEmpty.int_of_string) in E. rewrite !NilEmpty.isi in E.
  injection E as E. exact (DecimalZ.to_int_inj _ _ E).
Qed.

(** [JsonPath::debug_string] loses nothing: two segments whose keys hold no
    comma and whose debug strings are equal are the same segment (key, idx
    and validity). *)
Theorem debug_string_injective (p1 p2 : JsonPath) :
  has_char "," (key p1) = false -> has_char "," (key p2) = false ->
  fst (debug_string p1) = fst (debug_string p2) -> p1 = p2.
Proof.
  destruct p1 as [k1 i1 b1], p2 as [k2 i2 b2]. intros H1 H2 E.
  unfold debug_string, ss_str, ss_put_bool, ss_put_int, ss_put_string, ss_empty in E.
  cbn [fst ss_buf key idx is_valid] in E. rewrite !string_app_assoc in E.
  simpl in H1, H2. simpl in E. injection E as E.
  destruct (string_split_first_comma _ _ _ _ H1 H2 E) as [-> E'].
  injection E' as E'.
  destruct (string_app_cancel_len (int_decimal i1) (int_decimal i2)
              (", valid: " ++ (if b1 then "1" else "0"))
              (", valid: " ++ (if b2 then "1" else "0")) E') as [Ei Eb];
    [destruct b1, b2; reflexivity|].
  rewrite (int_decimal_inj _ _ Ei).
  destruct b1, b2; try reflexivity; discriminate.
Qed.

Lemma debug_string_injective_witness :
  mkJsonPath "a" 3 true = mkJsonPath "a" 3 true.
Proof. apply debug_string_injective; reflexivity. Defined.
